(** * Grayscale converter with bit-depth quantization

    A shallow embedding of [Greyscale_Inverter/src/main.py]: the raw-buffer
    unpacking, the luminance computation and the bit-depth quantization of
    [ImageConverter.update_grayscale], and the state handling of
    [ImageConverter.load_image].

    NumPy's [float64] and Python's [float] are IEEE-754 binary64 numbers:
    they are modelled by Rocq's primitive floats, which are the same format
    with the same round-to-nearest-even operations.  Bytes are integers in
    [0, 255], Python integers are [Z]. *)

From Stdlib Require Import Ascii String.
From Stdlib Require Import ZArith List Bool Lia Floats Uint63.
Import ListNotations.

(* The decimal constants of the source (0.299, 0.587, 0.114) are not binary64
   values; as in Python, each one denotes the nearest binary64 number. *)
Set Warnings "-inexact-float".

Local Open Scope Z_scope.

(** ** Python exceptions and results *)

Inductive py_exception : Type :=
| ZeroDivisionError
| ValueError
| AttributeError.

Inductive result (A : Type) : Type :=
| Ok (a : A)
| Raise (e : py_exception).

Arguments Ok {A} a.
Arguments Raise {A} e.

Definition bind {A B : Type} (r : result A) (k : A -> result B) : result B :=
  match r with
  | Ok a => k a
  | Raise e => Raise e
  end.

Notation "x <- r ;; k" := (bind r (fun x => k))
  (at level 61, r at next level, right associativity).

(** ** binary64 arithmetic as NumPy and Python use it *)

Module Float64.

(** Conversion of an integer [0 <= z < 2^63] to binary64 (exact below
    [2^53], rounded to nearest above): [uint8 -> float64] in [np.dot], and
    the integer operand of a mixed [float64]/[int] operation. *)
Definition Z2f (z : Z) : float := of_uint63 (Uint63.of_Z z).

(** [2^52]: from there on every binary64 number is an integer. *)
Definition toint : float := 0x1p52%float.

(** C's [rint] in the default rounding mode (round half to even), which is
    what [np.round] applies to each [float64] (by the classical
    add-and-subtract of [2^52], as in libm). *)
Definition rint (x : float) : float :=
  if (x <? 0)%float then
    if (- toint <? x)%float then
      let y := (x - toint + toint)%float in
      if (y =? 0)%float then (-0)%float else y
    else x
  else if (x <? toint)%float then (x + toint - toint)%float
  else x.

(** The integer part of a binary64 number (truncation toward zero);
    [0] for infinities and NaN. *)
Definition trunc_Z (x : float) : Z :=
  match Prim2SF x with
  | S754_finite s m e =>
      let a := Z.shiftl (Z.pos m) e in
      if s then - a else a
  | _ => 0
  end.

(** [ndarray.astype(np.uint8)] on one [float64]: the C conversion, which
    truncates toward zero; a value outside [0, 256) keeps the low byte of
    its integer part. *)
Definition astype_uint8 (x : float) : Z := trunc_Z x mod 256.

End Float64.

Import Float64.

(** ** Python numbers: [2 ** bits] is an [int] for [bits >= 0] and a [float]
    for [bits < 0] *)

Inductive py_num : Type :=
| PyInt (z : Z)
| PyFloat (f : float).

Definition py_pow2 (bits : Z) : py_num :=
  if bits <? 0 then PyFloat (Z.ldexp 1%float bits) else PyInt (2 ^ bits).

Definition py_sub1 (x : py_num) : py_num :=
  match x with
  | PyInt z => PyInt (z - 1)
  | PyFloat f => PyFloat (f - 1)%float
  end.

Definition to_float (x : py_num) : float :=
  match x with
  | PyInt z => Z2f z
  | PyFloat f => f
  end.

(** [255 / d]: Python's true division, which raises on a zero divisor. *)
Definition py_truediv_255 (d : py_num) : result float :=
  match d with
  | PyInt 0 => Raise ZeroDivisionError
  | PyInt z => Ok (255 / Z2f z)%float
  | PyFloat f => if (f =? 0)%float then Raise ZeroDivisionError
                 else Ok (255 / f)%float
  end.

(** ** The grayscale conversion of [update_grayscale] (lines 160-166) *)

(** [np.dot(a, w)] on one pixel: the products are accumulated from [0.0],
    left to right, each product and each sum rounded on its own.  A BLAS
    kernel may instead fuse each multiply-add into one rounding; the
    statements that depend on how a tie falls are made for every rounding
    (see [luma_value] below). *)
Definition np_dot (a : list Z) (w : list float) : float :=
  fold_left (fun acc xw => (acc + Z2f (fst xw) * snd xw)%float)
            (combine a w) 0%float.

Definition luma_weights : list float := [0.299; 0.587; 0.114]%float.

(** [gray = np.dot(arr[..., :3], [0.299, 0.587, 0.114])]. *)
Definition grayscale (arr : list (list (list Z))) : list (list float) :=
  map (map (fun px => np_dot (firstn 3 px) luma_weights)) arr.

(** One entry of
    [np.round(gray / 255 * (levels - 1)) * (255 / (levels - 1))]
    followed by [.astype(np.uint8)]; [lm1] is [levels - 1] as a float and
    [scale] is [255 / (levels - 1)]. *)
Definition quant_step (lm1 : float) (gray : float) : float :=
  rint (gray / 255 * lm1)%float.

Definition gray_quant_value (lm1 scale : float) (gray : float) : Z :=
  astype_uint8 (quant_step lm1 gray * scale)%float.

Definition quantize (bits : Z) (gray : list (list float))
  : result (list (list Z)) :=
  let levels := py_pow2 bits in
  let lm1 := py_sub1 levels in
  scale <- py_truediv_255 lm1 ;;
  Ok (map (map (gray_quant_value (to_float lm1) scale)) gray).

(** The luminance of the pixel [(r, g, b)] and its quantized byte at a bit
    depth with [levels >= 2]. *)
Definition luma (r g b : Z) : float := np_dot [r; g; b] luma_weights.

Definition lm1_of (bits : Z) : float := to_float (py_sub1 (py_pow2 bits)).

Definition pixel_step (bits : Z) (r g b : Z) : float :=
  quant_step (lm1_of bits) (luma r g b).

Definition pixel_out (bits : Z) (r g b : Z) : Z :=
  gray_quant_value (lm1_of bits) (255 / lm1_of bits)%float (luma r g b).

(** ** Unpacking the raw buffer of the image (lines 137-158) *)

(** [n] consecutive blocks of [k] elements of a flat array. *)
Fixpoint chunks {A : Type} (n k : nat) (l : list A) : list (list A) :=
  match n with
  | O => []
  | S n' => firstn k l :: chunks n' k (skipn k l)
  end.

(** [a.reshape((n, k))] of a one-dimensional array: NumPy raises
    [ValueError] unless the array has exactly [n * k] elements. *)
Definition reshape2 {A : Type} (n k : nat) (l : list A)
  : result (list (list A)) :=
  if (length l =? n * k)%nat then Ok (chunks n k l) else Raise ValueError.

(** [a.reshape((h, w, c))] of a two-dimensional array (in C order). *)
Definition reshape3 {A : Type} (h w c : nat) (rows : list (list A))
  : result (list (list (list A))) :=
  let flat := concat rows in
  if (length flat =? h * w * c)%nat
  then Ok (map (chunks w c) (chunks h (w * c) flat))
  else Raise ValueError.

(** The array [arr] of line 158, from the memory [raw] behind [img.bits()]:
    [ptr.setsize(img.byteCount())] keeps [height * bytesPerLine] bytes of it
    (Qt: [byteCount() = bytesPerLine() * height()]).  The null image, which
    has no memory at all, is turned away before (see [image_buffer]). *)
Definition unpack (raw : list Z) (width height stride channels : nat)
  : result (list (list (list Z))) :=
  let ptr := firstn (height * stride) raw in
  arr <- reshape2 height stride ptr ;;
  let arr := map (firstn (width * channels)) arr in
  arr <- reshape3 height width channels arr ;;
  Ok (if (channels =? 4)%nat then map (map (firstn 3)) arr else arr).

(** The packed RGB bytes of an unpacked array, row-major. *)
Definition packed (arr : list (list (list Z))) : list Z :=
  concat (concat arr).

(** ** The image object and the widget state *)

Inductive QImage_Format : Type :=
| Format_RGB32
| Format_ARGB32
| Format_ARGB32_Premultiplied
| Format_RGB888
| Format_Grayscale8
| Format_Other.

Record QImage : Type := mkQImage {
  img_width : nat;
  img_height : nat;
  img_bytesPerLine : nat;
  img_format : QImage_Format;
  img_bits : list Z
}.

(** Lines 148-150. *)
Definition channels_of (f : QImage_Format) : nat :=
  match f with
  | Format_RGB32 | Format_ARGB32 | Format_ARGB32_Premultiplied => 4%nat
  | _ => 3%nat
  end.

(** Lines 137-166: the quantized grayscale array of an image. *)
Definition gray_quant (img : QImage) (bits : Z) : result (list (list Z)) :=
  arr <- unpack (img_bits img) (img_width img) (img_height img)
                (img_bytesPerLine img) (channels_of (img_format img)) ;;
  quantize bits (grayscale arr).

(** Lines 169-175: the [Format_Grayscale8] image over the array
    [gray_quant], whose shape is [(height, width)] and whose rows are
    [width] bytes apart. *)
Definition gray_image_of (w : nat) (q : list (list Z)) : QImage :=
  mkQImage w (length q) w Format_Grayscale8 (concat q).

(** What the user is shown or what reaches the disk. *)
Inductive ui_event : Type :=
| Warning (title text : string)
| Information (title text : string)
| SaveFile (path : string) (img : QImage).

(** The fields of lines 88-91 and the pixmaps of the two image labels (the
    layout and the text of the slider's label are left out). *)
Record AppState : Type := mkState {
  original_image : option QImage;
  gray_image : option QImage;
  file_path : option string;
  bits : Z;
  image_label : option QImage;
  gray_label : option QImage
}.

(** [__init__], lines 87-91 (the slider starts at 8). *)
Definition initial_state : AppState :=
  mkState None None None 8 None None.

(** [update_grayscale] (lines 132-181): the new state and the exception that
    escaped, if any; no field is assigned before line 178, so an exception
    leaves the state as it was. *)
Definition update_grayscale (st : AppState) : AppState * option py_exception :=
  match original_image st with
  | None => (st, None)
  | Some img =>
      match gray_quant img (bits st) with
      | Ok q =>
          let g := gray_image_of (img_width img) q in
          (mkState (original_image st) (Some g) (file_path st) (bits st)
                   (Some img) (Some g), None)
      | Raise e => (st, Some e)
      end
  end.

(** [update_bit_depth] (lines 125-129), the slot of the slider. *)
Definition update_bit_depth (st : AppState) (value : Z)
  : AppState * option py_exception :=
  let st1 := mkState (original_image st) (gray_image st) (file_path st) value
                     (image_label st) (gray_label st) in
  match original_image st1 with
  | None => (st1, None)
  | Some _ => update_grayscale st1
  end.

Definition is_empty (s : string) : bool :=
  match s with
  | EmptyString => true
  | _ => false
  end.

Definition load_failed : ui_event :=
  Warning "Error"%string "Failed to load image."%string.

Definition nothing_to_save : ui_event :=
  Warning "Error"%string "No grayscale image to save."%string.

Definition saved_message (path : string) : ui_event :=
  Information "Saved"%string
    ("Image saved successfully as:" ++ String "010"%char path)%string.

Section Handlers.

(** [QImage(file_path)]: [None] is the null image of a failed decode. *)
Variable decode : string -> option QImage.

(** [load_image(file_path)] (lines 107-122); [chosen] is what the file dialog
    returns when it is shown (empty when the user cancels).  The result is
    the new state, the message boxes shown, and the exception that escaped,
    if any. *)
Definition load_image (st : AppState) (arg chosen : string)
  : AppState * list ui_event * option py_exception :=
  let path := if is_empty arg then chosen else arg in
  if is_empty path then (st, [], None)
  else
    match decode path with
    | None => (st, [load_failed], None)
    | Some img =>
        let st1 := mkState (Some img) (gray_image st) (Some path) (bits st)
                           (image_label st) (gray_label st) in
        let '(st2, e) := update_grayscale st1 in
        (st2, [], e)
    end.

(** [dropEvent] (lines 101-104): [load_image] on the local file of each URL,
    in order; [drops] pairs each of them with what the file dialog would
    return if [load_image] shows it.  An exception ends the loop. *)
Fixpoint dropEvent (st : AppState) (drops : list (string * string))
  : AppState * list ui_event * option py_exception :=
  match drops with
  | [] => (st, [], None)
  | (arg, chosen) :: rest =>
      match load_image st arg chosen with
      | (st1, ev, Some e) => (st1, ev, Some e)
      | (st1, ev, None) =>
          let '(st2, ev2, e) := dropEvent st1 rest in
          (st2, ev ++ ev2, e)
      end
  end.

End Handlers.

(** [save_grayscale] (lines 195-206); [chosen] is what the save dialog
    returns.  The result of [QImage.save] is not looked at. *)
Definition save_grayscale (st : AppState) (chosen : string) : list ui_event :=
  match gray_image st with
  | None => [nothing_to_save]
  | Some g =>
      if is_empty chosen then []
      else [SaveFile chosen g; saved_message chosen]
  end.

(** ** Notions the statements use *)

(** A channel value of a [uint8] array. *)
Definition byte (z : Z) : Prop := 0 <= z <= 255.

(** A pixel of the array [arr] of line 158: three channel bytes. *)
Definition rgb_pixel (px : list Z) : Prop :=
  exists r g b, px = [r; g; b] /\ byte r /\ byte g /\ byte b.

(** The gray image [q] read as an RGB array ([R = G = B]). *)
Definition gray_to_rgb (q : list (list Z)) : list (list (list Z)) :=
  map (map (fun v => [v; v; v])) q.

(** The luminance in exact arithmetic, times 1000:
    [299 r + 587 g + 114 b]. *)
Definition luma_milli (r g b : Z) : Z := 299 * r + 587 * g + 114 * b.

(** The distance between the quantized byte and the exact luminance, times
    1000. *)
Definition quant_error (bits r g b : Z) : Z :=
  Z.abs (1000 * pixel_out bits r g b - luma_milli r g b).

(** The byte of the step index [k] at a bit depth: [floor (255 k / (levels - 1))]. *)
Definition level (bits k : Z) : Z := 255 * k / (2 ^ bits - 1).

Definition clamp_byte (z : Z) : Z := Z.max 0 (Z.min 255 z).

(** The quantized value as the specification words it: the step
    [round(luma / 255 * (levels - 1))] rescaled by [255 / (levels - 1)], then
    rounded (half to even) and clamped to [0, 255]. *)
Definition spec_rounded (bits r g b : Z) : Z :=
  let lm1 := lm1_of bits in
  let step := rint (luma r g b / 255 * lm1)%float in
  clamp_byte (trunc_Z (rint (step * 255 / lm1)%float)).

(** The same with the rescaled value truncated instead of rounded. *)
Definition spec_truncated (bits r g b : Z) : Z :=
  let lm1 := lm1_of bits in
  let step := rint (luma r g b / 255 * lm1)%float in
  clamp_byte (trunc_Z (step * 255 / lm1)%float).

(** The array [unpack] yields, entry by entry: channel [k] of pixel [x] of
    row [i] is the byte [i * stride + x * channels + k] of the buffer. *)
Definition unpack_model (raw : list Z) (w h s c : nat)
  : list (list (list Z)) :=
  map (fun i => map (fun x => map (fun k => nth (i * s + x * c + k) raw 0)
                                  (seq 0 3))
                    (seq 0 w))
      (seq 0 h).

(** The image has the bytes its geometry announces: [height] rows of
    [bytesPerLine] bytes in memory, each row holding [width] pixels of 3 or 4
    bytes. *)
Definition well_formed (img : QImage) : Prop :=
  (img_height img * img_bytesPerLine img <= length (img_bits img))%nat
  /\ (img_width img * channels_of (img_format img)
      <= img_bytesPerLine img)%nat.

(** Channel [k] of pixel [x] of row [i] in the memory of an image. *)
Definition channel_at (img : QImage) (i x k : nat) : Z :=
  nth (i * img_bytesPerLine img + x * channels_of (img_format img) + k)
      (img_bits img) 0.

(** The state [update_grayscale] leaves when it shows the gray image [q] of
    the original image [img]. *)
Definition shown (st : AppState) (img : QImage) (q : list (list Z))
  : AppState :=
  let g := gray_image_of (img_width img) q in
  mkState (Some img) (Some g) (file_path st) (bits st) (Some img) (Some g).

(** The path [load_image] opens: its argument, or the answer of the file
    dialog when the argument is empty. *)
Definition path_of (arg chosen : string) : string :=
  if is_empty arg then chosen else arg.

(** A dropped file that names a path the decoder turns into a well-formed
    image. *)
Definition loadable (decode : string -> option QImage) (d : string * string)
  : Prop :=
  is_empty (path_of (fst d) (snd d)) = false
  /\ exists img, decode (path_of (fst d) (snd d)) = Some img
                 /\ well_formed img.

(** What the widget keeps true of what it displays: the right-hand label
    shows the stored gray image, and a stored gray image is an unpadded
    [Format_Grayscale8] image next to some original image. *)
Definition ui_invariant (st : AppState) : Prop :=
  gray_label st = gray_image st
  /\ forall g, gray_image st = Some g ->
       img_format g = Format_Grayscale8
       /\ img_bytesPerLine g = img_width g
       /\ original_image st <> None.

(** ** Exhaustive checks over the pixels

    The float pipeline is checked on every pixel by evaluation.  A first
    pass shows that the computed luminance lies within two binary64 numbers
    of the correctly rounded exact luminance; a second pass runs the
    quantizer at every bit depth on each of these candidates. *)

Definition feq : float -> float -> bool := PrimFloat.Leibniz.eqb.

Definition zrange (m : nat) : list Z := map Z.of_nat (seq 0 m).

Definition irange (m : nat) : list int := map Uint63.of_Z (zrange m).

(** The binary64 number nearest to [n / 1000]. *)
Definition centre_i (n : int) : float := (of_uint63 n / 1000)%float.

Definition nbhd (n : int) : list float :=
  let c := centre_i n in
  if (n =? 0)%uint63 then [c]
  else [c; next_up c; next_down c; next_up (next_up c);
        next_down (next_down c)].

Definition near (n : int) (y : float) : bool :=
  let c := centre_i n in
  if feq y c then true else
  if (n =? 0)%uint63 then false else
  if feq y (next_up c) then true else
  if feq y (next_down c) then true else
  if feq y (next_up (next_up c)) then true else
  feq y (next_down (next_down c)).

(** All pixels [(r, g, b)], with what depends on [r] and on [(r, g)] only
    computed once. *)
Definition all_pixels (y1 : int -> float) (n1 : int -> int)
    (y2 : float -> int -> float) (n2 : int -> int -> int)
    (p : float -> int -> int -> bool) : bool :=
  let l := irange 256 in
  forallb (fun r =>
    let yr := y1 r in
    let nr := n1 r in
    forallb (fun g =>
      let yg := y2 yr g in
      let ng := n2 nr g in
      forallb (p yg ng) l) l) l.

Definition luma_r (r : int) : float := (0 + of_uint63 r * 0.299)%float.

Definition luma_g (y : float) (g : int) : float :=
  (y + of_uint63 g * 0.587)%float.

Definition milli_r (r : int) : int := (299 * r)%uint63.

Definition milli_g (n g : int) : int := (n + 587 * g)%uint63.

Definition near_b (y : float) (n b : int) : bool :=
  near (n + 114 * b)%uint63 (y + of_uint63 b * 0.114)%float.

(** All [n] in [0, 255000]. *)
Definition all_upto_255000 (p : int -> bool) : bool :=
  let l := irange 512 in
  forallb (fun hi => forallb (fun lo =>
     let n := (512 * hi + lo)%uint63 in
     if (n <=? 255000)%uint63 then p n else true) l) l.

(** The integer a float in [0, 2^52) holds, when it holds one. *)
Definition f2i (s : float) : int :=
  (normfr_mantissa (fst (frshiftexp (s + toint))) - 4503599627370496)%uint63.

(** At [levels - 1 = lm1], the step of the gray value [255 u] is an integer
    [k <= lm1], and a nearest one to [n * lm1 / 255000]. *)
Definition chk_bits (n : int) (u : float) (lm1 : int) : bool :=
  let s := rint (u * of_uint63 lm1) in
  let k := f2i s in
  if feq (of_uint63 k) s then
    if (k <=? lm1)%uint63 then
      if (n * lm1 <=? 255000 * k + 127500)%uint63 then
        (255000 * k <=? n * lm1 + 127500)%uint63
      else false else false else false.

Definition chk_y (n : int) (y : float) : bool :=
  let u := (y / 255)%float in
  if chk_bits n u 1 then if chk_bits n u 3 then if chk_bits n u 7 then
  if chk_bits n u 15 then if chk_bits n u 31 then if chk_bits n u 63 then
  if chk_bits n u 127 then if chk_bits n u 255 then
    feq (rint y) (rint (u * 255))
  else false else false else false else false
  else false else false else false else false.

Definition chk_n (n : int) : bool := forallb (chk_y n) (nbhd n).

(** All bit depths in [1, 8] with all their step indices. *)
Definition table_all (p : Z -> Z -> bool) : bool :=
  forallb (fun bits =>
    forallb (fun k => if k <=? 2 ^ bits - 1 then p bits k else true)
            (zrange 256))
    (map Z.succ (zrange 8)).

Definition table_entry (bits k : Z) : bool :=
  let lm1 := lm1_of bits in
  let v := level bits k in
  (0 <=? v) && (v <=? 255)
  && (trunc_Z (Z2f k * (255 / lm1))%float =? v)
  && (clamp_byte (trunc_Z (Z2f k * 255 / lm1)%float) =? v)
  && (trunc_Z (Z2f k) =? k)
  && feq (pixel_step bits v v v) (Z2f k).

(** ** The luminance as any dot-product kernel may round it

    [np.dot] hands the three products to a BLAS kernel, and the source does
    not fix how that kernel rounds: each product and sum on its own (as
    [np_dot] above does), or each multiply-add fused into one rounding.
    Either way the result lies within two binary64 numbers of the correctly
    rounded exact luminance; [luma_value r g b y] says that [y] is such a
    result for the pixel [(r, g, b)]. *)
Definition luma_value (r g b : Z) (y : float) : Prop :=
  In y (nbhd (Uint63.of_Z (luma_milli r g b))).

(** An entry of the array [gray] of line 161, for some pixel. *)
Definition gray_value (y : float) : Prop :=
  exists r g b, byte r /\ byte g /\ byte b /\ luma_value r g b y.

(** [round(y)], half to even, as an integer. *)
Definition round_half_even (y : float) : Z := trunc_Z (rint y).

(** The quantized value of the specification with the rescaled value
    truncated instead of rounded, on a luminance [y]:
    [round(y / 255 * (levels - 1)) * 255 / (levels - 1)], truncated toward
    zero and clamped to [0, 255]. *)
Definition spec_truncated_at (bits : Z) (y : float) : Z :=
  let lm1 := lm1_of bits in
  let step := rint (y / 255 * lm1)%float in
  clamp_byte (trunc_Z (step * 255 / lm1)%float).

(** ** Lines 137-142: the buffer behind the image

    A [QImage] of width 0 or of height 0 is Qt's null image: [img.bits()] is
    [None] and [ptr.setsize] raises [AttributeError].  [load_image] turns
    null images away, so [unpack] above is only ever reached with an image
    that has pixels. *)
Definition is_null (img : QImage) : bool :=
  ((img_width img =? 0) || (img_height img =? 0))%nat.

Definition image_buffer (img : QImage) : result (list Z) :=
  if is_null img then Raise AttributeError
  else Ok (firstn (img_height img * img_bytesPerLine img) (img_bits img)).

(** Lines 137-158 on an image. *)
Definition unpack_image (img : QImage) : result (list (list (list Z))) :=
  raw <- image_buffer img ;;
  unpack raw (img_width img) (img_height img) (img_bytesPerLine img)
         (channels_of (img_format img)).

(** * Proofs *)

(** ** Lists cut into blocks *)

Section ListFacts.

Context {A : Type}.
Implicit Types (l : list A) (ls : list (list A)).

Lemma chunks_as_map n k l :
  chunks n k l = map (fun i => firstn k (skipn (i * k) l)) (seq 0 n).
Proof.
  revert l; induction n as [|n IH]; intros l; [reflexivity|].
  cbn [chunks seq map]. f_equal.
  rewrite IH, <- seq_shift, map_map.
  apply map_ext. intros i. rewrite skipn_skipn.
  do 2 f_equal. lia.
Qed.

Lemma firstn_skipn_nth a m l (d : A) :
  (a + m <= length l)%nat ->
  firstn m (skipn a l) = map (fun k => nth (a + k) l d) (seq 0 m).
Proof.
  intros Hlen.
  set (f := fun k => nth (a + k) l d).
  apply nth_ext with (d := d) (d' := f O).
  - rewrite length_firstn, length_skipn, length_map, length_seq. lia.
  - intros n Hn.
    rewrite length_firstn, length_skipn in Hn.
    rewrite map_nth, seq_nth by lia.
    rewrite nth_firstn, nth_skipn. subst f. cbn beta.
    destruct (Nat.ltb_spec n m); [reflexivity | lia].
Qed.

Lemma length_concat_uniform m ls :
  Forall (fun r => length r = m) ls ->
  length (concat ls) = (length ls * m)%nat.
Proof.
  induction 1 as [|r ls Hr _ IH]; [reflexivity|].
  cbn [concat length]. rewrite length_app, IH, Hr. lia.
Qed.

Lemma nth_concat_uniform m ls (d : A) :
  Forall (fun r => length r = m) ls ->
  forall i j, (j < m)%nat ->
    nth (i * m + j) (concat ls) d = nth j (nth i ls []) d.
Proof.
  induction 1 as [|r ls Hr _ IH]; intros i j Hj.
  - cbn [concat]. destruct (i * m + j)%nat, i, j; reflexivity.
  - cbn [concat]. destruct i as [|i].
    + cbn [nth Nat.mul Nat.add]. apply app_nth1. lia.
    + rewrite app_nth2 by lia.
      replace (S i * m + j - length r)%nat with (i * m + j)%nat by lia.
      cbn [nth]. apply IH, Hj.
Qed.

Lemma chunks_concat_uniform k ls :
  Forall (fun r => length r = k) ls ->
  chunks (length ls) k (concat ls) = ls.
Proof.
  induction 1 as [|r ls Hr _ IH]; [reflexivity|].
  cbn [length chunks concat].
  rewrite firstn_app, skipn_app, Hr, Nat.sub_diag.
  rewrite firstn_all2, skipn_all2 by lia.
  cbn [firstn skipn]. rewrite app_nil_r. cbn [app]. now rewrite IH.
Qed.

End ListFacts.

(** ** [unpack] entry by entry *)

Lemma unpack_ok raw w h s c :
  (h * s <= length raw)%nat -> (w * c <= s)%nat -> c = 3%nat \/ c = 4%nat ->
  unpack raw w h s c = Ok (unpack_model raw w h s c).
Proof.
  intros Hraw Hs Hc.
  assert (Hc3 : (3 <= c)%nat) by lia.
  unfold unpack, reshape2.
  rewrite length_firstn, Nat.min_l, Nat.eqb_refl by exact Hraw.
  cbn [bind].
  (* the rows after [arr[:, :width*channels]] *)
  assert (Hrows :
    map (firstn (w * c)) (chunks h s (firstn (h * s) raw))
    = map (fun i => firstn (w * c) (skipn (i * s) raw)) (seq 0 h)).
  { rewrite chunks_as_map, map_map. apply map_ext_in.
    intros i Hi. apply in_seq in Hi.
    rewrite firstn_firstn, Nat.min_l by exact Hs.
    rewrite skipn_firstn_comm, firstn_firstn. f_equal. nia. }
  rewrite Hrows. clear Hrows.
  set (rows := map (fun i => firstn (w * c) (skipn (i * s) raw)) (seq 0 h)).
  assert (Huni : Forall (fun r => length r = (w * c)%nat) rows).
  { apply Forall_forall. intros r Hr. apply in_map_iff in Hr.
    destruct Hr as (i & <- & Hi). apply in_seq in Hi.
    rewrite length_firstn, length_skipn. nia. }
  assert (Hlen : length rows = h)
    by (unfold rows; now rewrite length_map, length_seq).
  unfold reshape3.
  rewrite (length_concat_uniform _ _ Huni), Hlen.
  replace (h * (w * c) =? h * w * c)%nat with true
    by (symmetry; apply Nat.eqb_eq; lia).
  cbn [bind]. f_equal.
  pose proof (chunks_concat_uniform _ _ Huni) as Hch.
  rewrite Hlen in Hch. rewrite Hch. clear Hch.
  (* the pixels of each row, without the alpha byte *)
  assert (Hpix :
    map (map (firstn 3)) (map (chunks w c) rows) = unpack_model raw w h s c).
  { unfold rows, unpack_model. rewrite !map_map. apply map_ext_in.
    intros i Hi. apply in_seq in Hi.
    rewrite chunks_as_map, map_map. apply map_ext_in.
    intros x Hx. apply in_seq in Hx.
    rewrite firstn_firstn, Nat.min_l by exact Hc3.
    rewrite skipn_firstn_comm, firstn_firstn, skipn_skipn.
    rewrite Nat.min_l by nia.
    rewrite (firstn_skipn_nth _ _ _ 0) by nia.
    apply map_ext. intros k. f_equal. lia. }
  destruct Hc as [-> | ->]; cbn [Nat.eqb].
  - rewrite <- Hpix, !map_map. apply map_ext_in. intros r Hr.
    rewrite chunks_as_map, !map_map. apply map_ext_in. intros x Hx.
    rewrite firstn_firstn. reflexivity.
  - exact Hpix.
Qed.

(** ** Machine integers *)

Lemma wB_val : wB = 9223372036854775808.
Proof. reflexivity. Qed.

Lemma phi_of_Z z : 0 <= z < 9223372036854775808 -> to_Z (Uint63.of_Z z) = z.
Proof. intros Hz. rewrite of_Z_spec, wB_val. apply Z.mod_small, Hz. Qed.

Lemma phi_add (x y : int) :
  to_Z x + to_Z y < 9223372036854775808 -> to_Z (x + y) = to_Z x + to_Z y.
Proof.
  intros H. pose proof (to_Z_bounded x). pose proof (to_Z_bounded y).
  rewrite add_spec, wB_val. apply Z.mod_small. lia.
Qed.

Lemma phi_mul (x y : int) :
  to_Z x * to_Z y < 9223372036854775808 -> to_Z (x * y) = to_Z x * to_Z y.
Proof.
  intros H. pose proof (to_Z_bounded x). pose proof (to_Z_bounded y).
  rewrite mul_spec, wB_val. apply Z.mod_small. nia.
Qed.

Lemma zrange_In m z : 0 <= z < Z.of_nat m -> In z (zrange m).
Proof.
  intros Hz. unfold zrange. apply in_map_iff.
  exists (Z.to_nat z). split; [lia | apply in_seq; lia].
Qed.

Lemma irange_In m z : 0 <= z < Z.of_nat m -> In (Uint63.of_Z z) (irange m).
Proof. intros Hz. unfold irange. apply in_map, zrange_In, Hz. Qed.

Lemma milli_of_Z r g b :
  byte r -> byte g -> byte b ->
  (299 * Uint63.of_Z r + 587 * Uint63.of_Z g + 114 * Uint63.of_Z b)%uint63
  = Uint63.of_Z (luma_milli r g b).
Proof.
  unfold byte, luma_milli. intros Hr Hg Hb. apply to_Z_inj.
  assert (Er := phi_of_Z r ltac:(lia)).
  assert (Eg := phi_of_Z g ltac:(lia)).
  assert (Eb := phi_of_Z b ltac:(lia)).
  assert (E1 : to_Z (299 * Uint63.of_Z r) = 299 * r)
    by (rewrite phi_mul; rewrite Er; change (to_Z 299) with 299; lia).
  assert (E2 : to_Z (587 * Uint63.of_Z g) = 587 * g)
    by (rewrite phi_mul; rewrite Eg; change (to_Z 587) with 587; lia).
  assert (E3 : to_Z (114 * Uint63.of_Z b) = 114 * b)
    by (rewrite phi_mul; rewrite Eb; change (to_Z 114) with 114; lia).
  assert (E4 : to_Z (299 * Uint63.of_Z r + 587 * Uint63.of_Z g)
               = 299 * r + 587 * g)
    by (rewrite phi_add; rewrite E1, E2; lia).
  rewrite phi_add; rewrite E4, E3; [|lia].
  rewrite phi_of_Z; lia.
Qed.

Lemma near_In n y : near n y = true -> In y (nbhd n).
Proof.
  unfold near, nbhd, feq.
  destruct (PrimFloat.Leibniz.eqb y (centre_i n)) eqn:E0.
  { apply FloatAxioms.Leibniz.eqb_spec in E0. subst y. intros _.
    destruct (n =? 0)%uint63; left; reflexivity. }
  destruct (n =? 0)%uint63; [discriminate|].
  repeat match goal with
  | |- (if PrimFloat.Leibniz.eqb y ?c then _ else _) = true -> _ =>
      let E := fresh "E" in
      destruct (PrimFloat.Leibniz.eqb y c) eqn:E;
      [ apply FloatAxioms.Leibniz.eqb_spec in E; subst y; intros _;
        cbn [In]; tauto | ]
  end.
  intros Elast. apply FloatAxioms.Leibniz.eqb_spec in Elast. subst y.
  cbn [In]. tauto.
Qed.

(** ** The exhaustive checks and what they give *)

Lemma all_pixels_sound y1 n1 y2 n2 p :
  all_pixels y1 n1 y2 n2 p = true ->
  forall r g b, byte r -> byte g -> byte b ->
    p (y2 (y1 (Uint63.of_Z r)) (Uint63.of_Z g))
      (n2 (n1 (Uint63.of_Z r)) (Uint63.of_Z g)) (Uint63.of_Z b) = true.
Proof.
  unfold all_pixels, byte. cbv zeta. intros H r g b Hr Hg Hb.
  rewrite forallb_forall in H.
  specialize (H _ (irange_In 256 r ltac:(lia))).
  rewrite forallb_forall in H.
  specialize (H _ (irange_In 256 g ltac:(lia))).
  rewrite forallb_forall in H.
  exact (H _ (irange_In 256 b ltac:(lia))).
Qed.

Lemma all_upto_255000_sound p :
  all_upto_255000 p = true ->
  forall n, 0 <= n <= 255000 -> p (Uint63.of_Z n) = true.
Proof.
  unfold all_upto_255000. cbv zeta. intros H n Hn.
  assert (Hq : 0 <= n / 512 < 512)
    by (split; [apply Z.div_pos; lia | apply Z.div_lt_upper_bound; lia]).
  pose proof (Z.mod_pos_bound n 512 ltac:(lia)) as Hm.
  pose proof (Z.div_mod n 512 ltac:(lia)) as Hdm.
  rewrite forallb_forall in H.
  specialize (H _ (irange_In 512 (n / 512) ltac:(lia))).
  rewrite forallb_forall in H.
  specialize (H _ (irange_In 512 (n mod 512) ltac:(lia))).
  assert (En : (512 * Uint63.of_Z (n / 512) + Uint63.of_Z (n mod 512))%uint63
               = Uint63.of_Z n).
  { apply to_Z_inj.
    assert (E1 : to_Z (512 * Uint63.of_Z (n / 512)) = 512 * (n / 512))
      by (rewrite phi_mul; rewrite phi_of_Z by lia;
          change (to_Z 512) with 512; lia).
    rewrite phi_add; rewrite E1, !phi_of_Z; lia. }
  rewrite En in H.
  assert (Hle : (Uint63.of_Z n <=? 255000)%uint63 = true).
  { apply leb_spec. rewrite phi_of_Z by lia.
    change (to_Z 255000) with 255000. lia. }
  rewrite Hle in H. exact H.
Qed.

Lemma pass1_true : all_pixels luma_r milli_r luma_g milli_g near_b = true.
Proof. vm_compute. reflexivity. Qed.

Lemma pass2_true : all_upto_255000 chk_n = true.
Proof. vm_compute. reflexivity. Qed.

Lemma luma_near r g b :
  byte r -> byte g -> byte b ->
  In (luma r g b) (nbhd (Uint63.of_Z (luma_milli r g b))).
Proof.
  intros Hr Hg Hb. apply near_In.
  pose proof (all_pixels_sound _ _ _ _ _ pass1_true r g b Hr Hg Hb) as H.
  unfold near_b, milli_g, milli_r in H.
  rewrite milli_of_Z in H by assumption.
  exact H.
Qed.

Lemma luma_chk r g b :
  byte r -> byte g -> byte b ->
  chk_y (Uint63.of_Z (luma_milli r g b)) (luma r g b) = true.
Proof.
  intros Hr Hg Hb.
  assert (Hn : 0 <= luma_milli r g b <= 255000)
    by (unfold luma_milli, byte in *; lia).
  pose proof (all_upto_255000_sound _ pass2_true _ Hn) as H.
  unfold chk_n in H. rewrite forallb_forall in H.
  apply H, luma_near; assumption.
Qed.

Lemma chk_bits_spec n u lm1 :
  to_Z n <= 255000 -> to_Z lm1 <= 255 ->
  chk_bits n u lm1 = true ->
  exists k, 0 <= k <= to_Z lm1
    /\ rint (u * of_uint63 lm1) = Z2f k
    /\ Z.abs (255000 * k - to_Z n * to_Z lm1) <= 127500.
Proof.
  intros Hn Hl. unfold chk_bits. cbv zeta.
  set (s := rint (u * of_uint63 lm1)). set (k := f2i s).
  destruct (feq (of_uint63 k) s) eqn:Es; [|discriminate].
  destruct (k <=? lm1)%uint63 eqn:Ek; [|discriminate].
  destruct (n * lm1 <=? 255000 * k + 127500)%uint63 eqn:E1; [|discriminate].
  intros E2.
  apply FloatAxioms.Leibniz.eqb_spec in Es.
  apply leb_spec in Ek, E1, E2.
  pose proof (to_Z_bounded k) as Bk.
  pose proof (to_Z_bounded n) as Bn.
  pose proof (to_Z_bounded lm1) as Bl.
  assert (Ea : to_Z (n * lm1) = to_Z n * to_Z lm1)
    by (apply phi_mul; nia).
  assert (Eb : to_Z (255000 * k) = 255000 * to_Z k)
    by (rewrite phi_mul; change (to_Z 255000) with 255000; lia).
  assert (Ec : to_Z (255000 * k + 127500) = 255000 * to_Z k + 127500)
    by (rewrite phi_add; rewrite Eb; change (to_Z 127500) with 127500; lia).
  assert (Ed : to_Z (n * lm1 + 127500) = to_Z n * to_Z lm1 + 127500)
    by (rewrite phi_add; rewrite Ea; change (to_Z 127500) with 127500; nia).
  rewrite Ea, Ec in E1. rewrite Eb, Ed in E2.
  exists (to_Z k). split; [lia|]. split; [|lia].
  unfold Z2f. rewrite of_to_Z. symmetry. exact Es.
Qed.

Lemma luma_milli_range r g b :
  byte r -> byte g -> byte b -> 0 <= luma_milli r g b <= 255000.
Proof. unfold byte, luma_milli. lia. Qed.

Lemma bits_cases bits :
  1 <= bits <= 8 ->
  bits = 1 \/ bits = 2 \/ bits = 3 \/ bits = 4 \/
  bits = 5 \/ bits = 6 \/ bits = 7 \/ bits = 8.
Proof. lia. Qed.

Lemma chk_y_bits n y bits :
  1 <= bits <= 8 -> chk_y n y = true ->
  chk_bits n (y / 255)%float (Uint63.of_Z (2 ^ bits - 1)) = true.
Proof.
  intros Hb. unfold chk_y. cbv zeta.
  repeat match goal with
  | |- (if ?c then _ else false) = true -> _ =>
      let E := fresh "E" in destruct c eqn:E; [|discriminate]
  end.
  intros _.
  destruct (bits_cases bits Hb) as [->|[->|[->|[->|[->|[->|[->| ->]]]]]]];
    assumption.
Qed.

Lemma pixel_step_spec bits r g b :
  1 <= bits <= 8 -> byte r -> byte g -> byte b ->
  exists k, 0 <= k <= 2 ^ bits - 1
    /\ pixel_step bits r g b = Z2f k
    /\ Z.abs (255000 * k - luma_milli r g b * (2 ^ bits - 1)) <= 127500.
Proof.
  intros Hbits Hr Hg Hb.
  pose proof (luma_milli_range r g b Hr Hg Hb) as Hn.
  pose proof (chk_y_bits _ _ bits Hbits (luma_chk r g b Hr Hg Hb)) as H.
  assert (Hp : 2 <= 2 ^ bits <= 256).
  { destruct (bits_cases bits Hbits) as [->|[->|[->|[->|[->|[->|[->| ->]]]]]]];
      cbn; lia. }
  apply chk_bits_spec in H; try (rewrite phi_of_Z; lia).
  rewrite !phi_of_Z in H by lia.
  destruct H as (k & Hk & Hs & Hnear). exists k. split; [exact Hk|].
  split; [|exact Hnear].
  unfold pixel_step, quant_step, lm1_of, py_pow2, py_sub1, to_float.
  destruct (Z.ltb_spec bits 0); [lia|]. exact Hs.
Qed.

Lemma round_luma_8 r g b :
  byte r -> byte g -> byte b ->
  rint (luma r g b) = pixel_step 8 r g b.
Proof.
  intros Hr Hg Hb. pose proof (luma_chk r g b Hr Hg Hb) as H.
  unfold chk_y in H. cbv zeta in H.
  repeat match type of H with
  | (if ?c then _ else false) = true => destruct c; [|discriminate]
  end.
  apply FloatAxioms.Leibniz.eqb_spec in H. exact H.
Qed.

Lemma table_all_sound p :
  table_all p = true ->
  forall bits k, 1 <= bits <= 8 -> 0 <= k <= 2 ^ bits - 1 -> p bits k = true.
Proof.
  unfold table_all. intros H bits k Hb Hk.
  rewrite forallb_forall in H.
  assert (Hin : In bits (map Z.succ (zrange 8))).
  { apply in_map_iff. exists (bits - 1). split; [lia|].
    apply zrange_In. lia. }
  specialize (H _ Hin). rewrite forallb_forall in H.
  assert (Hp : 2 ^ bits <= 256).
  { destruct (bits_cases bits Hb) as [->|[->|[->|[->|[->|[->|[->| ->]]]]]]];
      cbn; lia. }
  specialize (H _ (zrange_In 256 k ltac:(lia))).
  destruct (Z.leb_spec k (2 ^ bits - 1)); [exact H | lia].
Qed.

Lemma table_true : table_all table_entry = true.
Proof. vm_compute. reflexivity. Qed.

Lemma table_spec bits k :
  1 <= bits <= 8 -> 0 <= k <= 2 ^ bits - 1 ->
  0 <= level bits k <= 255
  /\ trunc_Z (Z2f k * (255 / lm1_of bits))%float = level bits k
  /\ clamp_byte (trunc_Z (Z2f k * 255 / lm1_of bits)%float) = level bits k
  /\ trunc_Z (Z2f k) = k
  /\ pixel_step bits (level bits k) (level bits k) (level bits k) = Z2f k.
Proof.
  intros Hb Hk. pose proof (table_all_sound _ table_true bits k Hb Hk) as H.
  unfold table_entry in H. cbv zeta in H.
  rewrite !andb_true_iff in H.
  destruct H as [[[[[H0 H1] H2] H3] H4] H5].
  apply Z.leb_le in H0, H1. apply Z.eqb_eq in H2, H3, H4.
  apply FloatAxioms.Leibniz.eqb_spec in H5. auto.
Qed.

Lemma pixel_out_step bits r g b :
  pixel_out bits r g b
  = astype_uint8 (pixel_step bits r g b * (255 / lm1_of bits))%float.
Proof. reflexivity. Qed.

(** the quantized byte of any pixel is the level of its step index *)
Lemma pixel_out_level bits r g b :
  1 <= bits <= 8 -> byte r -> byte g -> byte b ->
  exists k, 0 <= k <= 2 ^ bits - 1
    /\ pixel_step bits r g b = Z2f k
    /\ Z.abs (255000 * k - luma_milli r g b * (2 ^ bits - 1)) <= 127500
    /\ pixel_out bits r g b = level bits k.
Proof.
  intros Hbits Hr Hg Hb.
  destruct (pixel_step_spec bits r g b Hbits Hr Hg Hb) as (k & Hk & Hs & Hn).
  exists k. repeat split; try assumption; try lia.
  destruct (table_spec bits k Hbits Hk) as (Hv & Ht & _).
  rewrite pixel_out_step, Hs. unfold astype_uint8. rewrite Ht.
  apply Z.mod_small. lia.
Qed.

Lemma pow2_range bits : 1 <= bits <= 8 -> 2 <= 2 ^ bits <= 256.
Proof.
  intros Hb.
  destruct (bits_cases bits Hb) as [->|[->|[->|[->|[->|[->|[->| ->]]]]]]];
    cbn; lia.
Qed.

Lemma byte_level bits k :
  1 <= bits <= 8 -> 0 <= k <= 2 ^ bits - 1 -> byte (level bits k).
Proof. intros Hb Hk. apply (table_spec bits k Hb Hk). Qed.

(** Re-quantizing the gray pixel of a level gives the level back, with the
    same step index. *)
Lemma requantize_level bits k :
  1 <= bits <= 8 -> 0 <= k <= 2 ^ bits - 1 ->
  pixel_out bits (level bits k) (level bits k) (level bits k) = level bits k.
Proof.
  intros Hb Hk.
  destruct (table_spec bits k Hb Hk) as (Hv & Ht & _ & _ & Hs).
  rewrite pixel_out_step, Hs. unfold astype_uint8. rewrite Ht.
  apply Z.mod_small. lia.
Qed.

Lemma quantize_ok bits gray :
  1 <= bits <= 8 ->
  quantize bits gray
  = Ok (map (map (gray_quant_value (lm1_of bits) (255 / lm1_of bits)%float))
            gray).
Proof.
  intros Hb.
  destruct (bits_cases bits Hb) as [->|[->|[->|[->|[->|[->|[->| ->]]]]]]];
    reflexivity.
Qed.

Lemma np_dot_rgb r g b : np_dot (firstn 3 [r; g; b]) luma_weights = luma r g b.
Proof. reflexivity. Qed.

(** * The claims *)





(** C6: at 1 bit the step of every pixel is 0 or 1 and its byte is 0 or 255;
    for no depth in [1, 8] is [levels] equal to 1, and the quantizer returns
    an array. *)
Theorem one_bit_is_binary r g b :
  byte r -> byte g -> byte b ->
  (pixel_step 1 r g b = Z2f 0 \/ pixel_step 1 r g b = Z2f 1)
  /\ (pixel_out 1 r g b = 0 \/ pixel_out 1 r g b = 255)
  /\ (forall depth gray, 1 <= depth <= 8 ->
        py_pow2 depth = PyInt (2 ^ depth) /\ 2 <= 2 ^ depth
        /\ exists q, quantize depth gray = Ok q).
Proof.
  intros Hr Hg Hb.
  destruct (pixel_out_level 1 r g b ltac:(lia) Hr Hg Hb)
    as (k & Hk & Hs & _ & Ho).
  change (2 ^ 1 - 1) with 1 in Hk.
  assert (Hk01 : k = 0 \/ k = 1) by lia.
  split; [|split].
  - destruct Hk01 as [-> | ->]; [left | right]; exact Hs.
  - destruct Hk01 as [-> | ->]; [left | right]; exact Ho.
  - intros depth gray Hd. split; [|split].
    + unfold py_pow2. destruct (Z.ltb_spec depth 0); [lia | reflexivity].
    + apply pow2_range, Hd.
    + eexists. apply quantize_ok, Hd.
Qed.

Lemma one_bit_is_binary_witness :
  (pixel_step 1 200 30 99 = Z2f 0 \/ pixel_step 1 200 30 99 = Z2f 1)
  /\ (pixel_out 1 200 30 99 = 0 \/ pixel_out 1 200 30 99 = 255)
  /\ (forall depth gray, 1 <= depth <= 8 ->
        py_pow2 depth = PyInt (2 ^ depth) /\ 2 <= 2 ^ depth
        /\ exists q, quantize depth gray = Ok q).
Proof.
  apply (one_bit_is_binary 200 30 99); unfold byte; split; discriminate.
Defined.

(** C10: at every depth in [1, 8], the gray pixel made of a quantized byte
    has the step index of the pixel it came from and is quantized to
    itself. *)
Theorem requantize_same_bits bits r g b :
  1 <= bits <= 8 -> byte r -> byte g -> byte b ->
  let v := pixel_out bits r g b in
  pixel_step bits v v v = pixel_step bits r g b /\ pixel_out bits v v v = v.
Proof.
  intros Hbits Hr Hg Hb v. subst v.
  destruct (pixel_out_level bits r g b Hbits Hr Hg Hb) as (k & Hk & Hs & _ & Ho).
  rewrite Ho, Hs. split.
  - apply (table_spec bits k Hbits Hk).
  - apply requantize_level; assumption.
Qed.

Lemma requantize_same_bits_witness :
  pixel_step 3 (pixel_out 3 73 73 73) (pixel_out 3 73 73 73)
             (pixel_out 3 73 73 73)
  = pixel_step 3 73 73 73
  /\ pixel_out 3 (pixel_out 3 73 73 73) (pixel_out 3 73 73 73)
               (pixel_out 3 73 73 73)
     = pixel_out 3 73 73 73.
Proof.
  apply (requantize_same_bits 3 73 73 73); unfold byte; split; discriminate.
Defined.

Lemma requantize_pixel bits r g b :
  1 <= bits <= 8 -> byte r -> byte g -> byte b ->
  pixel_out bits (pixel_out bits r g b) (pixel_out bits r g b)
            (pixel_out bits r g b)
  = pixel_out bits r g b.
Proof.
  intros Hbits Hr Hg Hb.
  destruct (pixel_out_level bits r g b Hbits Hr Hg Hb) as (k & Hk & _ & _ & Ho).
  rewrite Ho. apply requantize_level; assumption.
Qed.

Lemma requantize_row bits row :
  1 <= bits <= 8 -> Forall rgb_pixel row ->
  let f := gray_quant_value (lm1_of bits) (255 / lm1_of bits)%float in
  let dot := fun px => np_dot (firstn 3 px) luma_weights in
  map f (map dot (map (fun v => [v; v; v]) (map f (map dot row))))
  = map f (map dot row).
Proof.
  intros Hbits Hrow f dot.
  induction Hrow as [|px row Hpx _ IH]; [reflexivity|].
  cbn [map]. f_equal; [|exact IH].
  destruct Hpx as (r & g & b & -> & Hr & Hg & Hb).
  apply (requantize_pixel bits r g b Hbits Hr Hg Hb).
Qed.

Lemma requantize_image bits arr :
  1 <= bits <= 8 -> Forall (Forall rgb_pixel) arr ->
  let f := gray_quant_value (lm1_of bits) (255 / lm1_of bits)%float in
  map (map f) (grayscale (gray_to_rgb (map (map f) (grayscale arr))))
  = map (map f) (grayscale arr).
Proof.
  intros Hbits Harr f. unfold grayscale, gray_to_rgb.
  induction Harr as [|row arr Hrow _ IH]; [reflexivity|].
  cbn [map]. f_equal; [|exact IH].
  apply (requantize_row bits row Hbits Hrow).
Qed.

(** C5: quantizing at 8 bits the gray image that the 8-bit quantizer
    produced (read as an RGB image with R = G = B) gives that image back. *)
Theorem requantize_8_bits_unchanged arr q :
  Forall (Forall rgb_pixel) arr ->
  quantize 8 (grayscale arr) = Ok q ->
  quantize 8 (grayscale (gray_to_rgb q)) = Ok q.
Proof.
  intros Harr Hq.
  rewrite quantize_ok in Hq by lia. injection Hq as <-.
  rewrite quantize_ok by lia. f_equal.
  apply (requantize_image 8 arr ltac:(lia) Harr).
Qed.

Lemma rgb_pixel_intro r g b :
  byte r -> byte g -> byte b -> rgb_pixel [r; g; b].
Proof. intros Hr Hg Hb. exists r, g, b. auto. Qed.

Lemma requantize_8_bits_unchanged_witness :
  quantize 8 (grayscale (gray_to_rgb [[76; 149]])) = Ok [[76; 149]].
Proof.
  apply (requantize_8_bits_unchanged [[[255; 0; 0]; [0; 254; 0]]]).
  - repeat constructor; apply rgb_pixel_intro; unfold byte; split; discriminate.
  - reflexivity.
Defined.

Lemma py_truediv_255_int z :
  z <> 0 -> py_truediv_255 (PyInt z) = Ok (255 / Z2f z)%float.
Proof. destruct z; [congruence | reflexivity | reflexivity]. Qed.

(** C7, as stated: a depth outside [1, 8] makes the quantizer fail.  It does
    not: at 9 bits the quantizer returns an array. *)
Lemma bit_depth_not_checked :
  ~ (forall depth gray,
       ~ (1 <= depth <= 8) -> exists e, quantize depth gray = Raise e).
Proof.
  intros H.
  destruct (H 9 [[luma 255 0 0]] ltac:(lia)) as [e He].
  vm_compute in He. discriminate He.
Qed.

(** C7, amended: the quantizer checks no bit depth.  At 0 bits it raises
    [ZeroDivisionError]; at every depth in [1, 62], also above 8, it returns
    an array of the shape of its input. *)
Theorem quantize_by_bit_depth depth gray :
  0 <= depth <= 62 ->
  (depth = 0 -> quantize depth gray = Raise ZeroDivisionError)
  /\ (depth <> 0 ->
      exists q, quantize depth gray = Ok q
                /\ map (@length Z) q = map (@length float) gray).
Proof.
  intros Hd. split.
  - intros ->. reflexivity.
  - intros Hnz. unfold quantize, py_pow2. cbv zeta.
    destruct (Z.ltb_spec depth 0); [lia|]. cbn [py_sub1].
    assert (1 < 2 ^ depth) by (apply Z.pow_gt_1; lia).
    rewrite py_truediv_255_int by lia. cbn [bind].
    eexists. split; [reflexivity|].
    rewrite map_map. apply map_ext. intros row. apply length_map.
Qed.

Lemma quantize_by_bit_depth_witness :
  (9 = 0 -> quantize 9 [[luma 255 0 0]] = Raise ZeroDivisionError)
  /\ (9 <> 0 ->
      exists q, quantize 9 [[luma 255 0 0]] = Ok q
                /\ map (@length Z) q = map (@length float) [[luma 255 0 0]]).
Proof.
  apply (quantize_by_bit_depth 9 [[luma 255 0 0]]). split; discriminate.
Defined.

Lemma nth_map_seq {A : Type} (F : nat -> A) n i d :
  (i < n)%nat -> nth i (map F (seq 0 n)) d = F i.
Proof.
  intros Hi. rewrite (nth_indep _ d (F O))
    by (rewrite length_map, length_seq; exact Hi).
  rewrite map_nth, seq_nth by exact Hi. reflexivity.
Qed.

(** The packed bytes of the array [unpack] yields. *)
Lemma packed_unpack_model raw w h s c :
  length (packed (unpack_model raw w h s c)) = (h * w * 3)%nat
  /\ forall i x k, (i < h)%nat -> (x < w)%nat -> (k < 3)%nat ->
       nth (i * w * 3 + x * 3 + k) (packed (unpack_model raw w h s c)) 0
       = nth (i * s + x * c + k) raw 0.
Proof.
  unfold packed.
  set (M := unpack_model raw w h s c).
  assert (HM : Forall (fun row => length row = w) M).
  { apply Forall_forall. intros row Hrow. apply in_map_iff in Hrow.
    destruct Hrow as (i & <- & _). now rewrite length_map, length_seq. }
  assert (HlenM : length M = h)
    by (unfold M, unpack_model; now rewrite length_map, length_seq).
  assert (HP : Forall (fun px => length px = 3%nat) (concat M)).
  { apply Forall_concat, Forall_forall. intros row Hrow.
    apply in_map_iff in Hrow. destruct Hrow as (i & <- & _).
    apply Forall_forall. intros px Hpx. apply in_map_iff in Hpx.
    destruct Hpx as (x & <- & _). reflexivity. }
  split.
  - rewrite (length_concat_uniform _ _ HP), (length_concat_uniform _ _ HM).
    now rewrite HlenM.
  - intros i x k Hi Hx Hk.
    replace (i * w * 3 + x * 3 + k)%nat with ((i * w + x) * 3 + k)%nat by lia.
    rewrite (nth_concat_uniform _ _ _ HP) by exact Hk.
    rewrite (nth_concat_uniform _ _ _ HM) by exact Hx.
    unfold M, unpack_model.
    rewrite (nth_map_seq _ h i) by exact Hi.
    rewrite (nth_map_seq _ w x) by exact Hx.
    rewrite (nth_map_seq _ 3 k) by exact Hk.
    reflexivity.
Qed.

(** C2: on a buffer of at least [height * stride] bytes, with
    [stride >= width * channels] and 3 or 4 channels, unpacking yields
    [height * width * 3] bytes: channel [k] of pixel [x] of row [i] is the
    byte [i * stride + x * channels + k] of the buffer, so what lies past
    [width * channels] in a row and the fourth byte of a pixel are dropped.
    The two buffers of the specification unpack as it says. *)
Theorem unpack_strips_padding_and_alpha raw w h s c :
  (h * s <= length raw)%nat -> (w * c <= s)%nat -> c = 3%nat \/ c = 4%nat ->
  (exists arr,
     unpack raw w h s c = Ok arr
     /\ length (packed arr) = (h * w * 3)%nat
     /\ forall i x k, (i < h)%nat -> (x < w)%nat -> (k < 3)%nat ->
          nth (i * w * 3 + x * 3 + k) (packed arr) 0
          = nth (i * s + x * c + k) raw 0)
  /\ (exists arr, unpack [10; 20; 30; 40; 50; 60; 0; 0] 2 1 8 3 = Ok arr
                  /\ packed arr = [10; 20; 30; 40; 50; 60])
  /\ (exists arr, unpack [10; 20; 30; 255] 1 1 4 4 = Ok arr
                  /\ packed arr = [10; 20; 30]).
Proof.
  intros Hraw Hs Hc. split; [|split].
  - exists (unpack_model raw w h s c).
    split; [apply unpack_ok; assumption | apply packed_unpack_model].
  - eexists. split; reflexivity.
  - eexists. split; reflexivity.
Qed.

Lemma unpack_strips_padding_and_alpha_witness :
  (exists arr,
     unpack [1; 2; 3; 9; 4; 5; 6; 9; 0; 0] 2 1 10 4 = Ok arr
     /\ length (packed arr) = (1 * 2 * 3)%nat
     /\ forall i x k, (i < 1)%nat -> (x < 2)%nat -> (k < 3)%nat ->
          nth (i * 2 * 3 + x * 3 + k) (packed arr) 0
          = nth (i * 10 + x * 4 + k) [1; 2; 3; 9; 4; 5; 6; 9; 0; 0] 0)
  /\ (exists arr, unpack [10; 20; 30; 40; 50; 60; 0; 0] 2 1 8 3 = Ok arr
                  /\ packed arr = [10; 20; 30; 40; 50; 60])
  /\ (exists arr, unpack [10; 20; 30; 255] 1 1 4 4 = Ok arr
                  /\ packed arr = [10; 20; 30]).
Proof.
  apply (unpack_strips_padding_and_alpha
           [1; 2; 3; 9; 4; 5; 6; 9; 0; 0] 2 1 10 4);
    [cbn; lia | cbn; lia | right; reflexivity].
Defined.

(** C9: when the decoder returns the null image, [load_image] shows the
    warning and returns the state it was given: the original image, the
    gray image and the file path are the previous ones. *)
Theorem load_image_decode_failure decode st arg chosen path :
  path = (if is_empty arg then chosen else arg) ->
  is_empty path = false ->
  decode path = None ->
  load_image decode st arg chosen
  = (st, [Warning "Error"%string "Failed to load image."%string], None).
Proof.
  intros -> Hne Hnull. unfold load_image. cbv zeta.
  rewrite Hne, Hnull. reflexivity.
Qed.

Lemma load_image_decode_failure_witness :
  load_image (fun _ => None) initial_state "broken.png"%string EmptyString
  = (initial_state,
     [Warning "Error"%string "Failed to load image."%string], None).
Proof.
  apply (load_image_decode_failure (fun _ => None) initial_state
           "broken.png"%string EmptyString "broken.png"%string);
    reflexivity.
Defined.

(** * Further properties of the code *)

Lemma level_8 k : level 8 k = k.
Proof.
  unfold level. change (2 ^ 8 - 1) with 255.
  rewrite Z.mul_comm. apply Z.div_mul. discriminate.
Qed.

Lemma level_mono bits j k :
  1 <= bits <= 8 -> j <= k -> level bits j <= level bits k.
Proof.
  intros Hb Hjk. pose proof (pow2_range bits Hb). unfold level.
  apply Z.div_le_mono; lia.
Qed.

(** X1: the quantized byte of a pixel is [floor (255 k / (levels - 1))] for
    a step index [k] in [0, levels - 1] that is a nearest integer to the
    exact [luma * (levels - 1) / 255]: the float pipeline loses nothing but
    the choice at an exact tie. *)
Theorem quantized_byte_is_level_of_nearest_step bits r g b :
  1 <= bits <= 8 -> byte r -> byte g -> byte b ->
  exists k,
    0 <= k <= 2 ^ bits - 1
    /\ Z.abs (255000 * k - luma_milli r g b * (2 ^ bits - 1)) <= 127500
    /\ pixel_out bits r g b = 255 * k / (2 ^ bits - 1).
Proof.
  intros Hbits Hr Hg Hb.
  destruct (pixel_out_level bits r g b Hbits Hr Hg Hb) as (k & Hk & _ & Hn & Ho).
  exists k. auto.
Qed.

Lemma quantized_byte_is_level_of_nearest_step_witness :
  exists k,
    0 <= k <= 2 ^ 3 - 1
    /\ Z.abs (255000 * k - luma_milli 73 73 73 * (2 ^ 3 - 1)) <= 127500
    /\ pixel_out 3 73 73 73 = 255 * k / (2 ^ 3 - 1).
Proof.
  apply (quantized_byte_is_level_of_nearest_step 3 73 73 73);
    unfold byte; split; discriminate.
Defined.

(** X2: at every depth the quantized byte is above the exact luminance by at
    most half a quantization step, [127.5 / (levels - 1)], and below it by
    less than half a step plus one (the truncation). *)
Theorem quantization_error_bound bits r g b :
  1 <= bits <= 8 -> byte r -> byte g -> byte b ->
  let m := 2 ^ bits - 1 in
  let d := 1000 * pixel_out bits r g b - luma_milli r g b in
  - (127500 + 1000 * m) < m * d <= 127500.
Proof.
  intros Hbits Hr Hg Hb m d. subst m d.
  destruct (pixel_out_level bits r g b Hbits Hr Hg Hb) as (k & Hk & _ & Hn & Ho).
  pose proof (pow2_range bits Hbits) as Hp.
  rewrite Ho. unfold level.
  set (m := 2 ^ bits - 1) in *. set (n := luma_milli r g b) in *.
  assert (Hm : 0 < m) by lia.
  pose proof (Z.mul_div_le (255 * k) m Hm) as Hlo.
  pose proof (Z.mul_succ_div_gt (255 * k) m Hm) as Hhi.
  set (o := 255 * k / m) in *. nia.
Qed.

Lemma quantization_error_bound_witness :
  - (127500 + 1000 * (2 ^ 3 - 1))
  < (2 ^ 3 - 1) * (1000 * pixel_out 3 73 73 73 - luma_milli 73 73 73)
  <= 127500.
Proof.
  apply (quantization_error_bound 3 73 73 73);
    unfold byte; split; discriminate.
Defined.

(** X3: at 8 bits the quantized byte is within one half of the exact
    luminance. *)
Theorem bits8_within_half r g b :
  byte r -> byte g -> byte b -> quant_error 8 r g b <= 500.
Proof.
  intros Hr Hg Hb.
  destruct (pixel_out_level 8 r g b ltac:(lia) Hr Hg Hb)
    as (k & Hk & _ & Hn & Ho).
  unfold quant_error. rewrite Ho, level_8.
  change (2 ^ 8 - 1) with 255 in Hn. lia.
Qed.

Lemma bits8_within_half_witness : quant_error 8 255 0 0 <= 500.
Proof.
  apply (bits8_within_half 255 0 0); unfold byte; split; discriminate.
Defined.

(** X4: at 1 bit the image is thresholded at half scale: a pixel whose exact
    luminance is below 127.5 becomes 0 and one above 127.5 becomes 255. *)
Theorem one_bit_threshold r g b :
  byte r -> byte g -> byte b ->
  (luma_milli r g b < 127500 -> pixel_out 1 r g b = 0)
  /\ (127500 < luma_milli r g b -> pixel_out 1 r g b = 255).
Proof.
  intros Hr Hg Hb.
  destruct (pixel_out_level 1 r g b ltac:(lia) Hr Hg Hb)
    as (k & Hk & _ & Hn & Ho).
  change (2 ^ 1 - 1) with 1 in *. rewrite Ho.
  split; intros Hlt.
  - assert (k = 0) as -> by lia. reflexivity.
  - assert (k = 1) as -> by lia. reflexivity.
Qed.

Lemma one_bit_threshold_witness :
  (luma_milli 0 217 0 < 127500 -> pixel_out 1 0 217 0 = 0)
  /\ (127500 < luma_milli 0 217 0 -> pixel_out 1 0 217 0 = 255).
Proof.
  apply (one_bit_threshold 0 217 0); unfold byte; split; discriminate.
Defined.

(** X5: at every depth a pixel of larger exact luminance never gets a
    smaller byte. *)
Theorem quantized_byte_monotone bits r1 g1 b1 r2 g2 b2 :
  1 <= bits <= 8 ->
  byte r1 -> byte g1 -> byte b1 -> byte r2 -> byte g2 -> byte b2 ->
  luma_milli r1 g1 b1 < luma_milli r2 g2 b2 ->
  pixel_out bits r1 g1 b1 <= pixel_out bits r2 g2 b2.
Proof.
  intros Hbits Hr1 Hg1 Hb1 Hr2 Hg2 Hb2 Hlt.
  destruct (pixel_out_level bits r1 g1 b1 Hbits Hr1 Hg1 Hb1)
    as (j & Hj & _ & Hn1 & ->).
  destruct (pixel_out_level bits r2 g2 b2 Hbits Hr2 Hg2 Hb2)
    as (k & Hk & _ & Hn2 & ->).
  pose proof (pow2_range bits Hbits) as Hp.
  apply level_mono; [exact Hbits|].
  set (m := 2 ^ bits - 1) in *.
  set (n1 := luma_milli r1 g1 b1) in *. set (n2 := luma_milli r2 g2 b2) in *.
  assert (n1 * m < n2 * m) by nia. lia.
Qed.

Lemma quantized_byte_monotone_witness :
  pixel_out 3 10 200 30 <= pixel_out 3 200 200 30.
Proof.
  apply (quantized_byte_monotone 3 10 200 30 200 200 30);
    unfold byte, luma_milli; try (split; discriminate); reflexivity.
Defined.

(** X6: black stays 0 and white stays 255 at every depth, and at 8 bits a
    gray pixel keeps its value. *)
Theorem extremes_and_grays_kept bits v :
  1 <= bits <= 8 -> byte v ->
  pixel_out bits 0 0 0 = 0
  /\ pixel_out bits 255 255 255 = 255
  /\ pixel_out 8 v v v = v.
Proof.
  intros Hbits Hv. pose proof (pow2_range bits Hbits) as Hp.
  assert (H0 : byte 0) by (unfold byte; lia).
  assert (H255 : byte 255) by (unfold byte; lia).
  split; [|split].
  - destruct (pixel_out_level bits 0 0 0 Hbits H0 H0 H0)
      as (k & Hk & _ & Hn & ->).
    change (luma_milli 0 0 0) with 0 in Hn.
    assert (k = 0) as -> by lia. reflexivity.
  - destruct (pixel_out_level bits 255 255 255 Hbits H255 H255 H255)
      as (k & Hk & _ & Hn & ->).
    change (luma_milli 255 255 255) with 255000 in Hn.
    assert (k = 2 ^ bits - 1) as -> by lia.
    unfold level. apply Z.div_mul. lia.
  - rewrite <- (level_8 v) at 1 2 3. rewrite requantize_level.
    + apply level_8.
    + lia.
    + change (2 ^ 8 - 1) with 255. exact Hv.
Qed.

Lemma extremes_and_grays_kept_witness :
  pixel_out 5 0 0 0 = 0
  /\ pixel_out 5 255 255 255 = 255
  /\ pixel_out 8 131 131 131 = 131.
Proof.
  apply (extremes_and_grays_kept 5 131); unfold byte; split; discriminate.
Defined.

Lemma quantize_ok_wide depth gray :
  1 <= depth ->
  quantize depth gray
  = Ok (map (map (gray_quant_value (lm1_of depth) (255 / lm1_of depth)%float))
            gray).
Proof.
  intros Hd. unfold quantize, lm1_of, py_pow2. cbv zeta.
  destruct (Z.ltb_spec depth 0); [lia|]. cbn [py_sub1 to_float].
  assert (1 < 2 ^ depth) by (apply Z.pow_gt_1; lia).
  rewrite py_truediv_255_int by lia. reflexivity.
Qed.

Lemma unpack_well_formed img :
  well_formed img ->
  unpack (img_bits img) (img_width img) (img_height img)
         (img_bytesPerLine img) (channels_of (img_format img))
  = Ok (unpack_model (img_bits img) (img_width img) (img_height img)
                     (img_bytesPerLine img) (channels_of (img_format img))).
Proof.
  intros [Hmem Hrow]. apply unpack_ok; [exact Hmem | exact Hrow |].
  destruct (img_format img); cbn; auto.
Qed.

(** The gray array of a well-formed image, entry by entry. *)
Lemma gray_quant_well_formed img depth :
  well_formed img -> 1 <= depth ->
  gray_quant img depth
  = Ok (map (fun i => map (fun x =>
              pixel_out depth (channel_at img i x 0) (channel_at img i x 1)
                        (channel_at img i x 2))
              (seq 0 (img_width img)))
            (seq 0 (img_height img))).
Proof.
  intros Hwf Hd. unfold gray_quant.
  rewrite (unpack_well_formed img Hwf). cbn [bind].
  rewrite quantize_ok_wide by exact Hd. f_equal.
  unfold grayscale, unpack_model. rewrite !map_map.
  apply map_ext. intros i. rewrite !map_map.
  apply map_ext. intros x. reflexivity.
Qed.

(** X7: for a well-formed image and a depth in [1, 62] the conversion
    returns [height] rows of [width] bytes, and the byte of a pixel is the
    quantized luminance of the first three bytes of that pixel in memory:
    row padding, the fourth byte of a 32-bit pixel and the other pixels do
    not enter into it. *)
Theorem gray_quant_pixelwise img depth :
  well_formed img -> 1 <= depth <= 62 ->
  exists q,
    gray_quant img depth = Ok q
    /\ length q = img_height img
    /\ forall i x, (i < img_height img)%nat -> (x < img_width img)%nat ->
         length (nth i q []) = img_width img
         /\ nth x (nth i q []) 0
            = pixel_out depth (channel_at img i x 0) (channel_at img i x 1)
                        (channel_at img i x 2)
         /\ byte (nth x (nth i q []) 0).
Proof.
  intros Hwf Hd. eexists. split; [apply gray_quant_well_formed; [exact Hwf|lia]|].
  split; [now rewrite length_map, length_seq|].
  intros i x Hi Hx.
  rewrite (nth_map_seq _ (img_height img) i) by exact Hi.
  rewrite (nth_map_seq _ (img_width img) x) by exact Hx.
  split; [now rewrite length_map, length_seq|]. split; [reflexivity|].
  unfold byte, pixel_out, gray_quant_value, astype_uint8.
  match goal with |- 0 <= ?a mod 256 <= 255 =>
    pose proof (Z.mod_pos_bound a 256 ltac:(lia)) end.
  lia.
Qed.

Lemma gray_quant_pixelwise_witness :
  exists q,
    gray_quant (mkQImage 1 2 4 Format_RGB888 [255; 0; 0; 9; 0; 0; 255; 9]) 4
    = Ok q
    /\ length q = 2%nat
    /\ forall i x, (i < 2)%nat -> (x < 1)%nat ->
         length (nth i q []) = 1%nat
         /\ nth x (nth i q []) 0
            = pixel_out 4
                (channel_at (mkQImage 1 2 4 Format_RGB888
                               [255; 0; 0; 9; 0; 0; 255; 9]) i x 0)
                (channel_at (mkQImage 1 2 4 Format_RGB888
                               [255; 0; 0; 9; 0; 0; 255; 9]) i x 1)
                (channel_at (mkQImage 1 2 4 Format_RGB888
                               [255; 0; 0; 9; 0; 0; 255; 9]) i x 2)
         /\ byte (nth x (nth i q []) 0).
Proof.
  apply (gray_quant_pixelwise
           (mkQImage 1 2 4 Format_RGB888 [255; 0; 0; 9; 0; 0; 255; 9]) 4).
  - split; cbn; lia.
  - split; discriminate.
Defined.

(** X8: two well-formed images of the same geometry and format whose pixels
    agree on their first three bytes have the same gray array, whatever
    their padding and alpha bytes are. *)
Theorem gray_quant_ignores_padding_and_alpha w h s f raw1 raw2 depth :
  well_formed (mkQImage w h s f raw1) ->
  well_formed (mkQImage w h s f raw2) ->
  (forall i x k, (i < h)%nat -> (x < w)%nat -> (k < 3)%nat ->
     nth (i * s + x * channels_of f + k) raw1 0
     = nth (i * s + x * channels_of f + k) raw2 0) ->
  gray_quant (mkQImage w h s f raw1) depth
  = gray_quant (mkQImage w h s f raw2) depth.
Proof.
  intros Hwf1 Hwf2 Hagree. unfold gray_quant.
  rewrite (unpack_well_formed _ Hwf1), (unpack_well_formed _ Hwf2).
  cbn [img_bits img_width img_height img_bytesPerLine img_format].
  replace (unpack_model raw1 w h s (channels_of f))
    with (unpack_model raw2 w h s (channels_of f)); [reflexivity|].
  unfold unpack_model.
  apply map_ext_in. intros i Hi. apply in_seq in Hi.
  apply map_ext_in. intros x Hx. apply in_seq in Hx.
  apply map_ext_in. intros k Hk. apply in_seq in Hk.
  symmetry. apply Hagree; lia.
Qed.

Lemma gray_quant_ignores_padding_and_alpha_witness :
  gray_quant (mkQImage 1 1 8 Format_ARGB32 [10; 20; 30; 255; 1; 2; 3; 4]) 8
  = gray_quant (mkQImage 1 1 8 Format_ARGB32 [10; 20; 30; 0; 0; 0; 0; 0]) 8.
Proof.
  apply (gray_quant_ignores_padding_and_alpha 1 1 8 Format_ARGB32).
  - split; cbn; lia.
  - split; cbn; lia.
  - intros i x k Hi Hx Hk.
    assert (i = 0%nat) as -> by lia. assert (x = 0%nat) as -> by lia.
    destruct k as [|[|[|k]]]; [reflexivity | reflexivity | reflexivity | lia].
Defined.

(** X9: an image with rows and whose rows are shorter than [width] pixels
    of 3 (or 4) bytes, as an 8-bit grayscale or indexed image is, makes the
    conversion raise [ValueError], at any bit depth. *)
Theorem gray_quant_short_rows img depth :
  (0 < img_height img)%nat ->
  (img_bytesPerLine img
   < img_width img * channels_of (img_format img))%nat ->
  (img_height img * img_bytesPerLine img <= length (img_bits img))%nat ->
  gray_quant img depth = Raise ValueError.
Proof.
  intros Hh Hshort Hmem. unfold gray_quant, unpack, reshape2.
  set (h := img_height img) in *. set (s := img_bytesPerLine img) in *.
  set (wc := (img_width img * channels_of (img_format img))%nat) in *.
  rewrite length_firstn, Nat.min_l, Nat.eqb_refl by exact Hmem.
  cbn [bind]. unfold reshape3.
  set (rows := map (firstn wc) (chunks h s (firstn (h * s) (img_bits img)))).
  assert (Huni : Forall (fun r => length r = s) rows).
  { apply Forall_forall. intros r Hr. unfold rows in Hr.
    rewrite chunks_as_map, map_map in Hr. apply in_map_iff in Hr.
    destruct Hr as (i & <- & Hi). apply in_seq in Hi.
    rewrite !length_firstn, length_skipn, length_firstn. nia. }
  assert (Hlen : length rows = h)
    by (unfold rows; now rewrite length_map, chunks_as_map, length_map,
                                 length_seq).
  rewrite (length_concat_uniform _ _ Huni), Hlen.
  replace (h * s =? h * img_width img * channels_of (img_format img))%nat
    with false; [reflexivity|].
  symmetry. apply Nat.eqb_neq. unfold wc in Hshort. nia.
Qed.

Lemma gray_quant_short_rows_witness :
  gray_quant (mkQImage 2 1 4 Format_Grayscale8 [10; 20; 0; 0]) 8
  = Raise ValueError.
Proof.
  apply (gray_quant_short_rows (mkQImage 2 1 4 Format_Grayscale8 [10; 20; 0; 0]) 8);
    cbn; lia.
Defined.

Lemma update_grayscale_well_formed st img :
  original_image st = Some img -> well_formed img -> 1 <= bits st ->
  exists q,
    gray_quant img (bits st) = Ok q
    /\ length (concat q) = (img_width img * img_height img)%nat
    /\ length q = img_height img
    /\ update_grayscale st
       = (mkState (Some img) (Some (gray_image_of (img_width img) q))
                  (file_path st) (bits st) (Some img)
                  (Some (gray_image_of (img_width img) q)), None).
Proof.
  intros Ho Hwf Hb.
  pose proof (gray_quant_well_formed img (bits st) Hwf Hb) as Hq.
  eexists. split; [exact Hq|]. split; [|split].
  - rewrite (length_concat_uniform (img_width img)).
    + rewrite length_map, length_seq. lia.
    + apply Forall_forall. intros row Hrow. apply in_map_iff in Hrow.
      destruct Hrow as (i & <- & _). now rewrite length_map, length_seq.
  - now rewrite length_map, length_seq.
  - unfold update_grayscale. rewrite Ho, Hq. reflexivity.
Qed.

(** X10: loading a file that decodes to a well-formed image, at a slider
    depth in [1, 62], stores the path and the image, and stores and shows a
    [Format_Grayscale8] image of the same width and height with unpadded
    rows and [width * height] bytes; the depth is kept, no message box is
    shown and no exception escapes. *)
Theorem load_image_success decode st arg chosen img :
  is_empty (path_of arg chosen) = false ->
  decode (path_of arg chosen) = Some img ->
  well_formed img -> 1 <= bits st <= 62 ->
  exists g,
    load_image decode st arg chosen
    = (mkState (Some img) (Some g) (Some (path_of arg chosen)) (bits st)
               (Some img) (Some g), [], None)
    /\ img_format g = Format_Grayscale8
    /\ img_width g = img_width img
    /\ img_height g = img_height img
    /\ img_bytesPerLine g = img_width img
    /\ length (img_bits g) = (img_width img * img_height img)%nat.
Proof.
  intros Hne Hdec Hwf Hb.
  set (st1 := mkState (Some img) (gray_image st) (Some (path_of arg chosen))
                      (bits st) (image_label st) (gray_label st)).
  destruct (update_grayscale_well_formed st1 img eq_refl Hwf ltac:(cbn; lia))
    as (q & _ & Hlen & Hh & Hup).
  exists (gray_image_of (img_width img) q). split.
  - unfold load_image. cbv zeta. fold (path_of arg chosen).
    rewrite Hne, Hdec. fold st1. rewrite Hup. reflexivity.
  - cbn. auto.
Qed.

Lemma load_image_success_witness :
  exists g,
    load_image (fun _ => Some (mkQImage 1 1 4 Format_RGB888 [255; 0; 0; 0]))
               initial_state "red.png"%string EmptyString
    = (mkState (Some (mkQImage 1 1 4 Format_RGB888 [255; 0; 0; 0])) (Some g)
               (Some (path_of "red.png"%string EmptyString))
               (bits initial_state)
               (Some (mkQImage 1 1 4 Format_RGB888 [255; 0; 0; 0])) (Some g),
       [], None)
    /\ img_format g = Format_Grayscale8
    /\ img_width g = img_width (mkQImage 1 1 4 Format_RGB888 [255; 0; 0; 0])
    /\ img_height g = img_height (mkQImage 1 1 4 Format_RGB888 [255; 0; 0; 0])
    /\ img_bytesPerLine g
       = img_width (mkQImage 1 1 4 Format_RGB888 [255; 0; 0; 0])
    /\ length (img_bits g)
       = Nat.mul (img_width (mkQImage 1 1 4 Format_RGB888 [255; 0; 0; 0]))
                 (img_height (mkQImage 1 1 4 Format_RGB888 [255; 0; 0; 0])).
Proof.
  apply (load_image_success
           (fun _ => Some (mkQImage 1 1 4 Format_RGB888 [255; 0; 0; 0]))
           initial_state "red.png"%string EmptyString).
  - reflexivity.
  - reflexivity.
  - split; cbn; lia.
  - split; discriminate.
Defined.

(** X11: loading a file that decodes to an image with too short rows (an
    8-bit grayscale file, say) lets [ValueError] escape after the path and
    the original image were replaced: the gray image and both labels are
    still those of the previous file, and [save_grayscale] still writes that
    previous gray image. *)
Theorem load_image_short_rows decode st arg chosen img :
  is_empty (path_of arg chosen) = false ->
  decode (path_of arg chosen) = Some img ->
  (0 < img_height img)%nat ->
  (img_bytesPerLine img
   < img_width img * channels_of (img_format img))%nat ->
  (img_height img * img_bytesPerLine img <= length (img_bits img))%nat ->
  load_image decode st arg chosen
  = (mkState (Some img) (gray_image st) (Some (path_of arg chosen)) (bits st)
             (image_label st) (gray_label st), [], Some ValueError)
  /\ forall target,
       save_grayscale (fst (fst (load_image decode st arg chosen))) target
       = save_grayscale st target.
Proof.
  intros Hne Hdec Hh Hshort Hmem.
  assert (E : load_image decode st arg chosen
              = (mkState (Some img) (gray_image st) (Some (path_of arg chosen))
                         (bits st) (image_label st) (gray_label st),
                 [], Some ValueError)).
  { unfold load_image. cbv zeta. fold (path_of arg chosen).
    rewrite Hne, Hdec. unfold update_grayscale.
    cbn [original_image bits].
    rewrite (gray_quant_short_rows img (bits st) Hh Hshort Hmem).
    reflexivity. }
  split; [exact E|]. intros target. rewrite E. reflexivity.
Qed.

Lemma load_image_short_rows_witness :
  load_image (fun _ => Some (mkQImage 2 1 4 Format_Grayscale8 [10; 20; 0; 0]))
             initial_state "gray.png"%string EmptyString
  = (mkState (Some (mkQImage 2 1 4 Format_Grayscale8 [10; 20; 0; 0]))
             (gray_image initial_state)
             (Some (path_of "gray.png"%string EmptyString))
             (bits initial_state)
             (image_label initial_state) (gray_label initial_state),
     [], Some ValueError)
  /\ forall target,
       save_grayscale
         (fst (fst (load_image
                      (fun _ => Some (mkQImage 2 1 4 Format_Grayscale8
                                               [10; 20; 0; 0]))
                      initial_state "gray.png"%string EmptyString))) target
       = save_grayscale initial_state target.
Proof.
  apply (load_image_short_rows
           (fun _ => Some (mkQImage 2 1 4 Format_Grayscale8 [10; 20; 0; 0]))
           initial_state "gray.png"%string EmptyString);
    [reflexivity | reflexivity | cbn; lia | cbn; lia | cbn; lia].
Defined.

Lemma update_bit_depth_loaded st img value :
  original_image st = Some img ->
  update_bit_depth st value
  = match gray_quant img value with
    | Ok q =>
        (mkState (Some img) (Some (gray_image_of (img_width img) q))
                 (file_path st) value (Some img)
                 (Some (gray_image_of (img_width img) q)), None)
    | Raise e =>
        (mkState (Some img) (gray_image st) (file_path st) value
                 (image_label st) (gray_label st), Some e)
    end.
Proof.
  intros Ho. unfold update_bit_depth, update_grayscale. cbv zeta.
  cbn [original_image bits file_path]. rewrite Ho.
  destruct (gray_quant img value); reflexivity.
Qed.

(** X12: the gray image is always recomputed from the original image, so
    what the slider did before does not matter: whenever the conversion at
    depth [v2] succeeds, moving the slider to [v1] first and then to [v2]
    ends in the same state as moving it to [v2] at once. *)
Theorem slider_history_forgotten st v1 v2 :
  snd (update_bit_depth st v2) = None ->
  update_bit_depth (fst (update_bit_depth st v1)) v2 = update_bit_depth st v2.
Proof.
  destruct (original_image st) as [img|] eqn:Ho.
  - rewrite (update_bit_depth_loaded st img v2 Ho).
    destruct (gray_quant img v2) as [q2|e2] eqn:H2; [|discriminate].
    intros _. rewrite (update_bit_depth_loaded st img v1 Ho).
    destruct (gray_quant img v1) as [q1|e1]; cbn [fst];
      match goal with |- update_bit_depth ?s v2 = _ =>
        rewrite (update_bit_depth_loaded s img v2 eq_refl) end;
      rewrite H2; reflexivity.
  - intros _. unfold update_bit_depth. cbv zeta. cbn [original_image].
    rewrite ?Ho. cbn [fst original_image]. rewrite ?Ho. reflexivity.
Qed.

Lemma slider_history_forgotten_witness :
  update_bit_depth
    (fst (update_bit_depth
            (mkState (Some (mkQImage 1 1 4 Format_RGB888 [255; 0; 0; 0]))
                     None None 8 None None) 1)) 5
  = update_bit_depth
      (mkState (Some (mkQImage 1 1 4 Format_RGB888 [255; 0; 0; 0]))
               None None 8 None None) 5.
Proof.
  apply (slider_history_forgotten
           (mkState (Some (mkQImage 1 1 4 Format_RGB888 [255; 0; 0; 0]))
                    None None 8 None None) 1 5).
  reflexivity.
Defined.

Lemma update_grayscale_invariant st :
  ui_invariant st -> ui_invariant (fst (update_grayscale st)).
Proof.
  intros Hinv. unfold update_grayscale.
  destruct (original_image st) as [img|]; [|exact Hinv].
  destruct (gray_quant img (bits st)) as [q|e]; [|exact Hinv].
  cbn [fst]. split; [reflexivity|].
  cbn [gray_image original_image]. intros g [= <-].
  repeat split. discriminate.
Qed.

Lemma load_image_invariant decode st arg chosen :
  ui_invariant st ->
  ui_invariant (fst (fst (load_image decode st arg chosen))).
Proof.
  intros Hinv. unfold load_image. cbv zeta.
  destruct (is_empty (if is_empty arg then chosen else arg)); [exact Hinv|].
  destruct (decode (if is_empty arg then chosen else arg)) as [img|];
    [|exact Hinv].
  match goal with |- context [update_grayscale ?s] =>
    assert (H1 : ui_invariant s);
    [| pose proof (update_grayscale_invariant s H1) as H2;
       destruct (update_grayscale s) as [st2 e]; exact H2]
  end.
  destruct Hinv as [Hl Hg]. split; [exact Hl|].
  cbn [gray_image original_image]. intros g Hgi.
  destruct (Hg g Hgi) as (Hf & Hb & _). repeat split; try assumption.
  discriminate.
Qed.

(** X13: every handler keeps the display consistent, whatever the decoder
    returns and whether or not an exception escapes: the right-hand label
    shows the stored gray image, which is an unpadded [Format_Grayscale8]
    image and is never there without an original image. *)
Theorem display_stays_consistent decode st :
  ui_invariant st ->
  (forall arg chosen,
     ui_invariant (fst (fst (load_image decode st arg chosen))))
  /\ (forall value, ui_invariant (fst (update_bit_depth st value)))
  /\ (forall drops, ui_invariant (fst (fst (dropEvent decode st drops)))).
Proof.
  intros Hinv. split; [|split].
  - intros arg chosen. apply load_image_invariant, Hinv.
  - intros value. unfold update_bit_depth. cbv zeta. cbn [original_image].
    assert (H1 : ui_invariant
                   (mkState (original_image st) (gray_image st) (file_path st)
                            value (image_label st) (gray_label st)))
      by exact Hinv.
    destruct (original_image st) eqn:Ho; [|exact H1].
    rewrite <- Ho. rewrite <- Ho in H1.
    apply update_grayscale_invariant, H1.
  - intros drops. revert st Hinv.
    induction drops as [|[arg chosen] rest IH]; intros st Hinv; [exact Hinv|].
    cbn [dropEvent].
    pose proof (load_image_invariant decode st arg chosen Hinv) as H1.
    destruct (load_image decode st arg chosen) as [[st1 ev] [e|]];
      [exact H1|].
    cbn [fst] in H1. specialize (IH st1 H1).
    destruct (dropEvent decode st1 rest) as [[st2 ev2] e2]. exact IH.
Qed.

Lemma initial_state_invariant : ui_invariant initial_state.
Proof. split; [reflexivity | intros g Hg; discriminate Hg]. Qed.

Lemma display_stays_consistent_witness :
  (forall arg chosen,
     ui_invariant
       (fst (fst (load_image (fun _ => None) initial_state arg chosen))))
  /\ (forall value, ui_invariant (fst (update_bit_depth initial_state value)))
  /\ (forall drops,
        ui_invariant
          (fst (fst (dropEvent (fun _ => None) initial_state drops)))).
Proof.
  apply (display_stays_consistent (fun _ => None) initial_state).
  exact initial_state_invariant.
Defined.

Lemma load_image_loadable decode st d :
  loadable decode d -> 1 <= bits st <= 62 ->
  exists img g,
    forall st', bits st' = bits st ->
      load_image decode st' (fst d) (snd d)
      = (mkState (Some img) (Some g) (Some (path_of (fst d) (snd d)))
                 (bits st) (Some img) (Some g), [], None).
Proof.
  intros (Hne & img & Hdec & Hwf) Hb.
  destruct (gray_quant_well_formed img (bits st) Hwf ltac:(lia)) as [].
  exists img. eexists. intros st' Hbits.
  unfold load_image. cbv zeta. fold (path_of (fst d) (snd d)).
  rewrite Hne, Hdec. unfold update_grayscale. cbn [original_image bits].
  rewrite Hbits, (gray_quant_well_formed img (bits st) Hwf ltac:(lia)).
  cbn [file_path]. reflexivity.
Qed.

(** X14: when every dropped file decodes to a well-formed image, dropping
    them all ends exactly where loading the last one alone does: nothing of
    the earlier files is left in the state. *)
Theorem drop_last_file_wins decode st drops d :
  1 <= bits st <= 62 ->
  Forall (loadable decode) drops -> loadable decode d ->
  dropEvent decode st (drops ++ [d]) = load_image decode st (fst d) (snd d).
Proof.
  intros Hb Hall Hd.
  destruct (load_image_loadable decode st d Hd Hb) as (img & g & Hlast).
  revert st Hb Hlast.
  induction Hall as [|d0 rest Hd0 _ IH]; intros st Hb Hlast.
  - cbn [app dropEvent]. destruct d as [arg chosen]. cbn [fst snd] in *.
    rewrite (Hlast st eq_refl). reflexivity.
  - cbn [app dropEvent]. destruct d0 as [arg0 chosen0].
    destruct (load_image_loadable decode st (arg0, chosen0) Hd0 Hb)
      as (img0 & g0 & H0).
    cbn [fst snd] in H0. rewrite (H0 st eq_refl).
    set (st0 := mkState (Some img0) (Some g0) (Some (path_of arg0 chosen0))
                        (bits st) (Some img0) (Some g0)).
    assert (Hb0 : 1 <= bits st0 <= 62) by exact Hb.
    rewrite (IH st0 Hb0); [| intros st' Hst'; apply Hlast; exact Hst'].
    rewrite (Hlast st0 eq_refl), (Hlast st eq_refl). reflexivity.
Qed.

Lemma drop_last_file_wins_witness :
  dropEvent (fun _ => Some (mkQImage 1 1 4 Format_RGB888 [255; 0; 0; 0]))
            initial_state
            ([("a.png"%string, EmptyString)] ++ [("b.png"%string, EmptyString)])
  = load_image (fun _ => Some (mkQImage 1 1 4 Format_RGB888 [255; 0; 0; 0]))
               initial_state (fst ("b.png"%string, EmptyString))
               (snd ("b.png"%string, EmptyString)).
Proof.
  apply (drop_last_file_wins
           (fun _ => Some (mkQImage 1 1 4 Format_RGB888 [255; 0; 0; 0]))
           initial_state).
  - split; discriminate.
  - constructor; [|constructor].
    split; [reflexivity|]. eexists. split; [reflexivity|]. split; cbn; lia.
  - split; [reflexivity|]. eexists. split; [reflexivity|]. split; cbn; lia.
Defined.

(** X15: at every depth in [1, 8], not only at 8, quantizing the gray image
    the quantizer produced (read as an RGB image with R = G = B) at the same
    depth gives that image back. *)
Theorem requantize_image_unchanged depth arr q :
  1 <= depth <= 8 ->
  Forall (Forall rgb_pixel) arr ->
  quantize depth (grayscale arr) = Ok q ->
  quantize depth (grayscale (gray_to_rgb q)) = Ok q.
Proof.
  intros Hd Harr Hq.
  rewrite quantize_ok in Hq by exact Hd. injection Hq as <-.
  rewrite quantize_ok by exact Hd. f_equal.
  apply (requantize_image depth arr Hd Harr).
Qed.

Lemma requantize_image_unchanged_witness :
  quantize 2 (grayscale (gray_to_rgb [[85; 170]])) = Ok [[85; 170]].
Proof.
  apply (requantize_image_unchanged 2 [[[255; 0; 0]; [0; 254; 0]]]).
  - split; discriminate.
  - repeat constructor; apply rgb_pixel_intro; unfold byte; split; discriminate.
  - reflexivity.
Defined.

(** X16: the gray image the conversion builds is not an image the conversion
    accepts: it has one byte per pixel and unpadded rows, so converting it
    (with at least one pixel) raises [ValueError]. *)
Theorem gray_image_not_convertible w q depth :
  (0 < w)%nat -> q <> [] -> Forall (fun row => length row = w) q ->
  gray_quant (gray_image_of w q) depth = Raise ValueError.
Proof.
  intros Hw Hq Hrows. apply gray_quant_short_rows.
  - cbn [gray_image_of img_height]. destruct q; [congruence | cbn; lia].
  - cbn. lia.
  - cbn [gray_image_of img_height img_bytesPerLine img_bits].
    rewrite (length_concat_uniform w q Hrows). lia.
Qed.

Lemma gray_image_not_convertible_witness :
  gray_quant (gray_image_of 2 [[76; 149]]) 8 = Raise ValueError.
Proof.
  apply (gray_image_not_convertible 2 [[76; 149]] 8).
  - lia.
  - discriminate.
  - repeat constructor.
Defined.

(** * The quantizer on every rounding of the dot product *)

Lemma nbhd_chk n y :
  0 <= n <= 255000 -> In y (nbhd (Uint63.of_Z n)) ->
  chk_y (Uint63.of_Z n) y = true.
Proof.
  intros Hn Hy.
  pose proof (all_upto_255000_sound _ pass2_true _ Hn) as H.
  unfold chk_n in H. rewrite forallb_forall in H. apply H, Hy.
Qed.

(** The model's own luminance is one of the admitted values. *)
Lemma luma_is_luma_value r g b :
  byte r -> byte g -> byte b -> luma_value r g b (luma r g b).
Proof. intros Hr Hg Hb. apply luma_near; assumption. Qed.

Lemma grayscale_gray_values arr :
  Forall (Forall rgb_pixel) arr -> Forall (Forall gray_value) (grayscale arr).
Proof.
  intros Harr. unfold grayscale.
  induction Harr as [|row arr Hrow _ IH]; [constructor|].
  cbn [map]. constructor; [|exact IH].
  induction Hrow as [|px row Hpx _ IHrow]; [constructor|].
  cbn [map]. constructor; [|exact IHrow].
  destruct Hpx as (r & g & b & -> & Hr & Hg & Hb).
  exists r, g, b. split; [exact Hr|]. split; [exact Hg|]. split; [exact Hb|].
  exact (luma_is_luma_value r g b Hr Hg Hb).
Qed.

Lemma step_at bits r g b y :
  1 <= bits <= 8 -> byte r -> byte g -> byte b -> luma_value r g b y ->
  exists k, 0 <= k <= 2 ^ bits - 1
    /\ quant_step (lm1_of bits) y = Z2f k
    /\ Z.abs (255000 * k - luma_milli r g b * (2 ^ bits - 1)) <= 127500.
Proof.
  intros Hbits Hr Hg Hb Hy.
  pose proof (luma_milli_range r g b Hr Hg Hb) as Hn.
  pose proof (chk_y_bits _ _ bits Hbits (nbhd_chk _ y Hn Hy)) as H.
  pose proof (pow2_range bits Hbits) as Hp.
  apply chk_bits_spec in H; try (rewrite phi_of_Z; lia).
  rewrite !phi_of_Z in H by lia.
  destruct H as (k & Hk & Hs & Hnear). exists k. split; [exact Hk|].
  split; [|exact Hnear].
  unfold quant_step, lm1_of, py_pow2, py_sub1, to_float.
  destruct (Z.ltb_spec bits 0); [lia|]. exact Hs.
Qed.

Lemma value_at bits r g b y :
  1 <= bits <= 8 -> byte r -> byte g -> byte b -> luma_value r g b y ->
  exists k, 0 <= k <= 2 ^ bits - 1
    /\ Z.abs (255000 * k - luma_milli r g b * (2 ^ bits - 1)) <= 127500
    /\ gray_quant_value (lm1_of bits) (255 / lm1_of bits)%float y
       = level bits k
    /\ spec_truncated_at bits y = level bits k.
Proof.
  intros Hbits Hr Hg Hb Hy.
  destruct (step_at bits r g b y Hbits Hr Hg Hb Hy) as (k & Hk & Hs & Hn).
  destruct (table_spec bits k Hbits Hk) as (Hv & Ht & Hc & _).
  exists k. split; [exact Hk|]. split; [exact Hn|]. split.
  - unfold gray_quant_value, astype_uint8. rewrite Hs, Ht.
    apply Z.mod_small. lia.
  - unfold spec_truncated_at. cbv zeta.
    change (rint (y / 255 * lm1_of bits)%float)
      with (quant_step (lm1_of bits) y).
    rewrite Hs. exact Hc.
Qed.

Lemma round_at r g b y :
  byte r -> byte g -> byte b -> luma_value r g b y ->
  gray_quant_value (lm1_of 8) (255 / lm1_of 8)%float y = round_half_even y.
Proof.
  intros Hr Hg Hb Hy.
  destruct (step_at 8 r g b y ltac:(lia) Hr Hg Hb Hy) as (k & Hk & Hs & _).
  destruct (table_spec 8 k ltac:(lia) Hk) as (Hl & Ht & _ & Hz & _).
  pose proof (luma_milli_range r g b Hr Hg Hb) as Hn.
  pose proof (nbhd_chk _ y Hn Hy) as H.
  unfold chk_y in H. cbv zeta in H.
  repeat match type of H with
  | (if ?c then _ else false) = true => destruct c; [|discriminate]
  end.
  apply FloatAxioms.Leibniz.eqb_spec in H.
  change (rint (y / 255 * 255)%float) with (quant_step (lm1_of 8) y) in H.
  unfold round_half_even. rewrite H, Hs, Hz.
  unfold gray_quant_value, astype_uint8. rewrite Hs, Ht.
  rewrite Z.mod_small by lia. apply level_8.
Qed.

Lemma map_map_ext_Forall {A B : Type} (P : A -> Prop) (f g : A -> B) ll :
  (forall a, P a -> f a = g a) ->
  Forall (Forall P) ll -> map (map f) ll = map (map g) ll.
Proof.
  intros Hfg Hll. induction Hll as [|l ll Hl _ IH]; [reflexivity|].
  cbn [map]. f_equal; [|exact IH].
  induction Hl as [|a l Ha _ IHl]; [reflexivity|].
  cbn [map]. f_equal; [apply Hfg, Ha | exact IHl].
Qed.







